(** * Path finding and path following of the maze game

    A shallow embedding of [game/gamestates/gameplay.py]: the breadth-first
    search [GamePlay.bf_pathfinding], the pointer handler
    [GamePlay.click_handler], the per-tick [GamePlay.update] and the
    screen-to-world conversion [GamePlay.to_world].

    The tile map ([self.data.game_map]) is a collaborator whose class lives
    outside [gameplay.py]; its four queries are carried as the fields of the
    record [GameMap], so every general statement below holds for whatever
    map is plugged in. *)

From Stdlib Require Import Floats.
From stdpp Require Import base option list gmap sets.

Open Scope nat_scope.

(** ** The engine types the game state touches

    Coordinates are Python floats, binary64.  [game_res] holds the window
    size in pixels; it only ever enters a float division. *)

Module pyasge.

Module MOUSE.
Inductive button : Set := MOUSE_BTN1 | MOUSE_BTN2 | MOUSE_BTN3.
Inductive action : Set := BUTTON_RELEASED | BUTTON_PRESSED.

Definition is_button (a b : button) : bool :=
  match a, b with
  | MOUSE_BTN1, MOUSE_BTN1 | MOUSE_BTN2, MOUSE_BTN2
  | MOUSE_BTN3, MOUSE_BTN3 => true
  | _, _ => false
  end.

Definition is_action (a b : action) : bool :=
  match a, b with
  | BUTTON_RELEASED, BUTTON_RELEASED
  | BUTTON_PRESSED, BUTTON_PRESSED => true
  | _, _ => false
  end.
End MOUSE.

Record Point2D : Set := mkPoint2D { x : float; y : float }.

Module ClickEvent.
Record t : Set := mk
  { button : MOUSE.button; action : MOUSE.action; x : float; y : float }.
End ClickEvent.

Record CameraView : Set := mkCameraView
  { min_x : float; max_x : float; min_y : float; max_y : float }.

End pyasge.

(** ** Outcomes of running Python code

    [OutOfFuel] is the model running out of fuel for the [while] loop,
    [Raise] an uncaught Python exception, [Return] a normal return. *)

Inductive outcome (A : Type) : Type :=
| OutOfFuel : outcome A
| Raise : outcome A
| Return (a : A) : outcome A.

Arguments OutOfFuel {A}.
Arguments Raise {A}.
Arguments Return {A} a.

(** ** The breadth-first search *)

Section Pathfinder.

Context {Tile : Type} `{Countable Tile}.

(** [self.data.game_map.get_neighbors] *)
Variable get_neighbors : Tile → list Tile.

(** One run of the body of [while queue:] is one unit of fuel.

<<
        while queue:
            path = queue.pop(0)
            current_tile = path[-1]
            if current_tile == target_tile:
                return path
            if current_tile not in visited:
                visited.add(current_tile)
                neighbours = self.data.game_map.get_neighbors(current_tile)
                for neighbour in neighbours:
                    queue.append(path + [neighbour])
        return None
>>
      [path[-1]] raises [IndexError] on an empty list. *)
Fixpoint bf_loop (target_tile : Tile) (fuel : nat)
    (queue : list (list Tile)) (visited : gset Tile)
    : outcome (option (list Tile)) :=
  match fuel with
  | 0 => OutOfFuel
  | S fuel =>
    match queue with
    | [] => Return None
    | path :: queue =>
      match last path with
      | None => Raise
      | Some current_tile =>
        if decide (current_tile = target_tile) then Return (Some path)
        else if decide (current_tile ∈ visited)
        then bf_loop target_tile fuel queue visited
        else bf_loop target_tile fuel
               (queue ++ map (λ neighbour, path ++ [neighbour])
                             (get_neighbors current_tile))
               ({[current_tile]} ∪ visited)
      end
    end
  end.

Definition bf_pathfinding (fuel : nat) (start_tile target_tile : Tile)
    : outcome (option (list Tile)) :=
  bf_loop target_tile fuel [[start_tile]] ∅.

(** *** The adjacency graph of [get_neighbors] *)

(** Every tile of [p] but the first is a neighbour of the tile before it. *)
Fixpoint adjacent_pairs (p : list Tile) : Prop :=
  match p with
  | a :: (b :: _) as rest => b ∈ get_neighbors a ∧ adjacent_pairs rest
  | _ => True
  end.

(** [p] leads from [A] to [B] along edges of the graph. *)
Definition is_walk (A B : Tile) (p : list Tile) : Prop :=
  head p = Some A ∧ last p = Some B ∧ adjacent_pairs p.

Definition reachable (A B : Tile) : Prop := ∃ p, is_walk A B p.

(** Hop count of a path: its length minus one. *)
Definition hops (p : list Tile) : nat := length p - 1.

(** [d] is the least hop count of a walk from [A] to [B]. *)
Definition shortest_distance (A B : Tile) (d : nat) : Prop :=
  (∃ p, is_walk A B p ∧ hops p = d) ∧ ∀ p, is_walk A B p → d ≤ hops p.

(** The tiles at most [k] hops away from [A]. *)
Fixpoint ball (k : nat) (A : Tile) : list Tile :=
  match k with
  | 0 => [A]
  | S k => A :: flat_map (ball k) (get_neighbors A)
  end.

(** *** Loop invariants of the search *)

(** Every queued path starts at [A] and follows edges. *)
Definition from_start (A : Tile) (queue : list (list Tile)) : Prop :=
  Forall (λ p, head p = Some A ∧ adjacent_pairs p) queue.

(** Every queued path ends in a tile of [U]. *)
Definition ends_within (U : gset Tile) (queue : list (list Tile)) : Prop :=
  Forall (λ p, ∃ c, last p = Some c ∧ c ∈ U) queue.

(** The queue holds paths of some length [k] followed by paths of length
    [k + 1]. *)
Definition layered (queue : list (list Tile)) : Prop :=
  ∃ k q1 q2, queue = q1 ++ q2 ∧
    Forall (λ p, length p = k) q1 ∧ Forall (λ p, length p = S k) q2.

(** The walk [w] crosses the frontier: it splits into [w1 ++ c :: w2] where
    a queued path no longer than [w1 ++ [c]] ends in [c], and neither [c]
    nor a tile of [w2] is visited. *)
Definition crosses (w : list Tile) (queue : list (list Tile))
    (visited : gset Tile) : Prop :=
  ∃ w1 c w2, w = w1 ++ c :: w2 ∧
    (∃ p, p ∈ queue ∧ last p = Some c ∧ length p ≤ S (length w1)) ∧
    ∀ t, t ∈ c :: w2 → t ∉ visited.

(** What the loop keeps true while a walk [w] from [A] to the target
    exists. *)
Definition search_invariant (A : Tile) (w : list Tile)
    (queue : list (list Tile)) (visited : gset Tile) : Prop :=
  from_start A queue ∧ layered queue ∧ crosses w queue visited.

(** [U] contains every neighbour of each of its tiles. *)
Definition closed_under_neighbors (U : gset Tile) : Prop :=
  ∀ t n, t ∈ U → n ∈ get_neighbors t → n ∈ U.

End Pathfinder.


(** ** The game state *)

(** The queries of [self.data.game_map] that the play state calls. *)
Record GameMap (Tile : Type) : Type := mkGameMap
  { get_neighbors : Tile → list Tile;
    is_tile_passable : Tile → bool;
    tile : pyasge.Point2D → Tile;
    world : Tile → pyasge.Point2D }.

Arguments mkGameMap {Tile}.
Arguments get_neighbors {Tile}.
Arguments is_tile_passable {Tile}.
Arguments tile {Tile}.
Arguments world {Tile}.

(** The part of [GameData] that the play state reads and writes.  [path] is
    [None] or a list; [player] keeps the sprite's [x] and [y]. *)
Record GameData (Tile : Type) : Type := mkGameData
  { game_map : GameMap Tile;
    path : option (list Tile);
    player : pyasge.Point2D;
    game_res : float * float }.

Arguments mkGameData {Tile}.
Arguments game_map {Tile}.
Arguments path {Tile}.
Arguments player {Tile}.
Arguments game_res {Tile}.

(** [GamePlay]: the shared data and the camera's current view. *)
Record GamePlay (Tile : Type) : Type := mkGamePlay
  { data : GameData Tile;
    camera_view : pyasge.CameraView }.

Arguments mkGamePlay {Tile}.
Arguments data {Tile}.
Arguments camera_view {Tile}.

Section GamePlay.

Context {Tile : Type} `{Countable Tile}.

(** Python's truth value of [self.data.path]: [None] and [[]] are false. *)
Definition truthy (p : option (list Tile)) : bool :=
  match p with
  | Some (_ :: _) => true
  | _ => false
  end.

(** The follower is Idle when there is no active path. *)
Definition Idle (self : GamePlay Tile) : Prop :=
  truthy (path (data self)) = false.

Definition set_path (p : option (list Tile)) (self : GamePlay Tile)
    : GamePlay Tile :=
  mkGamePlay
    (mkGameData (game_map (data self)) p (player (data self))
                (game_res (data self)))
    (camera_view self).

(** [self.data.player.x = new_pos.x; self.data.player.y = new_pos.y] *)
Definition set_player_xy (new_x new_y : float) (self : GamePlay Tile)
    : GamePlay Tile :=
  mkGamePlay
    (mkGameData (game_map (data self)) (path (data self))
                (pyasge.mkPoint2D new_x new_y) (game_res (data self)))
    (camera_view self).

(** The tile the click handler resolves a press to:
    [self.data.game_map.tile(pyasge.Point2D(event.x, event.y))]. *)
Definition click_target (self : GamePlay Tile) (event : pyasge.ClickEvent.t)
    : Tile :=
  let target_pos :=
    pyasge.mkPoint2D (pyasge.ClickEvent.x event) (pyasge.ClickEvent.y event) in
  tile (game_map (data self)) target_pos.

(** The tile the search starts from:
    [self.data.game_map.tile(pyasge.Point2D(self.data.player.x, self.data.player.y))]. *)
Definition player_tile (self : GamePlay Tile) : Tile :=
  tile (game_map (data self))
    (pyasge.mkPoint2D (pyasge.x (player (data self)))
                      (pyasge.y (player (data self)))).

(** [GamePlay.click_handler]; [fuel] bounds the search it may start.  The
    [print] calls are left out; [is] on the button and action constants is
    modelled as equality of constructors. *)
Definition click_handler (fuel : nat) (self : GamePlay Tile)
    (event : pyasge.ClickEvent.t) : outcome (GamePlay Tile) :=
  if pyasge.MOUSE.is_button (pyasge.ClickEvent.button event)
       pyasge.MOUSE.MOUSE_BTN1
     && pyasge.MOUSE.is_action (pyasge.ClickEvent.action event)
          pyasge.MOUSE.BUTTON_PRESSED
  then
    let target_tile := click_target self event in
    if negb (is_tile_passable (game_map (data self)) target_tile)
    then Return self
    else if negb (truthy (path (data self)))
    then
      match bf_pathfinding (get_neighbors (game_map (data self))) fuel
              (player_tile self) target_tile with
      | OutOfFuel => OutOfFuel
      | Raise => Raise
      | Return found => Return (set_path found self)
      end
    else Return self
  else Return self.

(** [GamePlay.update], without its [print] calls.  [self.data.path.pop(0)]
    drops the head of the list that [self.data.path] holds. *)
Definition update (self : GamePlay Tile) : GamePlay Tile :=
  match path (data self) with
  | Some (next_tile :: rest) =>
    if negb (is_tile_passable (game_map (data self)) next_tile)
    then set_path None self
    else
      let new_pos := world (game_map (data self)) next_tile in
      set_path (Some rest)
        (set_player_xy (pyasge.x new_pos) (pyasge.y new_pos) self)
  | _ => self
  end.

(** [GamePlay.to_world] *)
Definition to_world (self : GamePlay Tile) (pos : pyasge.Point2D)
    : pyasge.Point2D :=
  let view := camera_view self in
  let x := ((pyasge.max_x view - pyasge.min_x view)
            / fst (game_res (data self)) * pyasge.x pos)%float in
  let y := ((pyasge.max_y view - pyasge.min_y view)
            / snd (game_res (data self)) * pyasge.y pos)%float in
  let x := (pyasge.min_x view + x)%float in
  let y := (pyasge.min_y view + y)%float in
  pyasge.mkPoint2D x y.

(** [n] ticks in a row. *)
Fixpoint ticks (n : nat) (self : GamePlay Tile) : GamePlay Tile :=
  match n with
  | 0 => self
  | S n => ticks n (update self)
  end.

End GamePlay.


(** ** A sample map

    A three by three grid of 32-pixel tiles, addressed (column, row), with
    walls at (1,0), (1,1) and (2,1):
<<
      . # o
      . # #
      . . .
>>
    The tile (2,0), marked [o], is passable but walled in.  Used to run the
    definitions on concrete input. *)

Definition sample_walls : list (nat * nat) := [(1, 0); (1, 1); (2, 1)].

Definition in_grid (t : nat * nat) : bool :=
  (fst t <? 3) && (snd t <? 3).

Definition sample_passable (t : nat * nat) : bool :=
  in_grid t && negb (bool_decide (t ∈ sample_walls)).

(** Up, right, down, left. *)
Definition four_neighbors (t : nat * nat) : list (nat * nat) :=
  let (c, r) := t in
  match r with S r' => [(c, r')] | 0 => [] end
  ++ [(S c, r); (c, S r)]
  ++ match c with S c' => [(c', r)] | 0 => [] end.

(** The neighbours one may step on. *)
Definition sample_neighbors (t : nat * nat) : list (nat * nat) :=
  List.filter sample_passable (four_neighbors t).

(** The neighbours on the grid, walls included. *)
Definition open_neighbors (t : nat * nat) : list (nat * nat) :=
  List.filter in_grid (four_neighbors t).

Fixpoint cell (bound : nat) (v : float) : nat :=
  match bound with
  | 0 => 0
  | S bound => if (v <? 32)%float then 0 else S (cell bound (v - 32)%float)
  end.

Fixpoint edge (n : nat) : float :=
  match n with
  | 0 => 0%float
  | S n => (edge n + 32)%float
  end.

Definition sample_tile (pos : pyasge.Point2D) : nat * nat :=
  (cell 2 (pyasge.x pos), cell 2 (pyasge.y pos)).

Definition sample_world (t : nat * nat) : pyasge.Point2D :=
  pyasge.mkPoint2D (edge (fst t)) (edge (snd t)).

Definition sample_map : GameMap (nat * nat) :=
  mkGameMap sample_neighbors sample_passable sample_tile sample_world.

(** The same grid with an adjacency query that does not look at walls. *)
Definition open_map : GameMap (nat * nat) :=
  mkGameMap open_neighbors sample_passable sample_tile sample_world.

(** A play state on map [m] with the agent on tile [t], a 96 by 96 window
    and the camera showing the world from [left] on. *)
Definition sample_play (m : GameMap (nat * nat))
    (p : option (list (nat * nat))) (t : nat * nat) (left : float)
    : GamePlay (nat * nat) :=
  mkGamePlay (mkGameData m p (sample_world t) (96, 96)%float)
    (pyasge.mkCameraView left (left + 96)%float 0%float 96%float).

Definition press (x y : float) : pyasge.ClickEvent.t :=
  pyasge.ClickEvent.mk pyasge.MOUSE.MOUSE_BTN1 pyasge.MOUSE.BUTTON_PRESSED x y.

(** The five tiles one can walk to from (0,0) on the sample map. *)
Definition sample_region : gset (nat * nat) :=
  list_to_set [(0, 0); (0, 1); (0, 2); (1, 2); (2, 2)].

(** ** An endless corridor: tile [n] leads to tile [n + 1] only. *)
Definition corridor_neighbors (n : nat) : list nat := [S n].

(** * Properties of the search *)

Section PathfinderFacts.

Context {Tile : Type} `{Countable Tile}.
Variable get_neighbors : Tile → list Tile.

Local Abbreviation bf_loop := (bf_loop get_neighbors).
Local Abbreviation adjacent_pairs := (adjacent_pairs get_neighbors).
Local Abbreviation is_walk := (is_walk get_neighbors).
Local Abbreviation expand p c := (map (λ n, p ++ [n]) (get_neighbors c)).

(** ** Fuel *)

Lemma bf_loop_fuel_mono target fuel fuel' queue visited o :
  bf_loop target fuel queue visited = o → o ≠ OutOfFuel → fuel ≤ fuel' →
  bf_loop target fuel' queue visited = o.
Proof.
  revert fuel' queue visited.
  induction fuel as [|fuel IH]; intros fuel' queue visited Hrun Hne Hle.
  - simpl in Hrun. congruence.
  - destruct fuel' as [|fuel']; [lia|].
    simpl in *. destruct queue as [|p queue]; [done|].
    destruct (last p) as [c|]; [|done].
    destruct (decide (c = target)); [done|].
    destruct (decide (c ∈ visited)); apply IH; auto with lia.
Qed.

(** ** Walks *)

Lemma adjacent_pairs_snoc p c n :
  adjacent_pairs p → last p = Some c → n ∈ get_neighbors c →
  adjacent_pairs (p ++ [n]).
Proof.
  induction p as [|a [|b r] IH]; intros Hadj Hlast Hn.
  - done.
  - simpl in *. by simplify_eq.
  - destruct Hadj as [Hab Hr]. split; [done|].
    apply IH; [done| |done]. by rewrite last_cons_cons in Hlast.
Qed.

Lemma adjacent_pairs_app_inv l a b r :
  adjacent_pairs (l ++ a :: b :: r) → b ∈ get_neighbors a.
Proof.
  induction l as [|x [|y l] IH]; simpl.
  - tauto.
  - intros [_ [? _]]. done.
  - intros [_ Hr]. apply IH. exact Hr.
Qed.

Lemma adjacent_pairs_lookup p i a b :
  adjacent_pairs p → p !! i = Some a → p !! S i = Some b →
  b ∈ get_neighbors a.
Proof.
  revert i. induction p as [|x [|y r] IH]; intros i Hadj Ha Hb.
  - done.
  - destruct i; done.
  - destruct Hadj as [Hxy Hr]. destruct i as [|i].
    + simpl in *. by simplify_eq.
    + apply (IH i); done.
Qed.

Lemma walk_in_ball k A c p :
  head p = Some A → last p = Some c → adjacent_pairs p → length p ≤ S k →
  c ∈ ball get_neighbors k A.
Proof.
  revert A p. induction k as [|k IH]; intros A p Hh Hl Hadj Hlen.
  - destruct p as [|a [|b r]]; simpl in *; simplify_eq; [set_solver|lia].
  - destruct p as [|a [|b r]]; simpl in *; simplify_eq.
    + set_solver.
    + destruct Hadj as [Hab Hr].
      apply elem_of_cons. right. apply list_elem_of_In, in_flat_map.
      exists b. split; [by apply list_elem_of_In|].
      apply list_elem_of_In. apply (IH b (b :: r)); simpl; auto with lia.
Qed.

(** ** Loop invariants

    A predicate on the loop state (queue, visited set) that survives both
    ways the loop body can continue holds whenever the loop returns; if in
    addition every path at the head of the queue ends in the target, in a
    visited tile or in a tile of a finite set [U], the loop returns. *)

Section Invariant.

Variable target : Tile.
Variable Inv : list (list Tile) → gset Tile → Prop.

Hypothesis Inv_skip : ∀ p q v c,
  Inv (p :: q) v → last p = Some c → c ≠ target → c ∈ v → Inv q v.
Hypothesis Inv_expand : ∀ p q v c,
  Inv (p :: q) v → last p = Some c → c ≠ target → c ∉ v →
  Inv (q ++ expand p c) ({[c]} ∪ v).

Lemma bf_loop_invariant fuel q v r :
  Inv q v → bf_loop target fuel q v = Return r →
  match r with
  | Some p => last p = Some target ∧ ∃ q' v', Inv (p :: q') v'
  | None => ∃ v', Inv [] v'
  end.
Proof.
  revert q v. induction fuel as [|fuel IH]; intros q v HI Hrun; [done|].
  simpl in Hrun. destruct q as [|p q].
  - simplify_eq. eauto.
  - destruct (last p) as [c|] eqn:Hlast; [|done].
    destruct (decide (c = target)) as [->|Hne].
    + simplify_eq. eauto.
    + destruct (decide (c ∈ v)) as [Hv|Hv].
      * apply (IH q v); [by eapply Inv_skip|done].
      * apply (IH (q ++ expand p c) ({[c]} ∪ v)); [by eapply Inv_expand|done].
Qed.

Variable U : gset Tile.

Hypothesis Inv_head : ∀ p q v,
  Inv (p :: q) v → ∃ c, last p = Some c ∧ (c = target ∨ c ∈ v ∨ c ∈ U).

Lemma bf_loop_returns q v :
  Inv q v → ∃ fuel r, bf_loop target fuel q v = Return r.
Proof.
  remember (size (U ∖ v)) as n eqn:Hn.
  assert (Hle : size (U ∖ v) ≤ n) by lia. clear Hn.
  revert q v Hle. induction n as [|n IHn]; intros q v Hle.
  - (* every tile of U is visited: the queue only shrinks *)
    induction q as [|p q IHq]; intros HI.
    + exists 1. eexists. done.
    + destruct (Inv_head _ _ _ HI) as (c & Hlast & Hc).
      destruct (decide (c = target)) as [->|Hne].
      { exists 1. eexists. simpl. rewrite Hlast, decide_True; done. }
      assert (c ∈ v) as Hv.
      { destruct Hc as [?|[?|HU]]; [done|done|].
        assert (size (U ∖ v) = 0) as Hz by lia.
        apply size_empty_inv in Hz. set_solver. }
      destruct IHq as (fuel & r & Hrun); [by eapply Inv_skip|].
      exists (S fuel), r. simpl.
      rewrite Hlast, decide_False, decide_True; done.
  - induction q as [|p q IHq]; intros HI.
    + exists 1. eexists. done.
    + destruct (Inv_head _ _ _ HI) as (c & Hlast & Hc).
      destruct (decide (c = target)) as [->|Hne].
      { exists 1. eexists. simpl. rewrite Hlast, decide_True; done. }
      destruct (decide (c ∈ v)) as [Hv|Hv].
      * destruct IHq as (fuel & r & Hrun); [by eapply Inv_skip|].
        exists (S fuel), r. simpl.
        rewrite Hlast, decide_False, decide_True; done.
      * assert (c ∈ U) as HU by (destruct Hc as [?|[?|?]]; done).
        destruct (IHn (q ++ expand p c) ({[c]} ∪ v)) as (fuel & r & Hrun).
        { assert (U ∖ ({[c]} ∪ v) ⊂ U ∖ v) as Hsub.
          { split.
            - intros t. rewrite !elem_of_difference, not_elem_of_union. tauto.
            - intros Hsub. specialize (Hsub c).
              rewrite !elem_of_difference, not_elem_of_union in Hsub.
              rewrite elem_of_singleton in Hsub. tauto. }
          apply subset_size in Hsub. lia. }
        { by eapply Inv_expand. }
        exists (S fuel), r. simpl.
        rewrite Hlast, decide_False, decide_False; done.
Qed.

End Invariant.

(** ** The invariants are kept *)

Lemma from_start_expand A p q c :
  from_start get_neighbors A (p :: q) → last p = Some c →
  from_start get_neighbors A (q ++ expand p c).
Proof.
  intros HF Hlast. apply Forall_cons in HF as [[Hh Hadj] Hq].
  apply Forall_app. split; [done|].
  apply Forall_forall. intros p' Hp'.
  apply list_elem_of_fmap in Hp' as (n & -> & Hn). split.
  - destruct p; simpl in *; done.
  - by eapply adjacent_pairs_snoc.
Qed.

Lemma ends_within_expand U p q c :
  (∀ t n, t ∈ U → n ∈ get_neighbors t → n ∈ U) →
  ends_within U (p :: q) → last p = Some c →
  ends_within U (q ++ expand p c).
Proof.
  intros Hclosed HF Hlast. apply Forall_cons in HF as [(c' & Hc' & HU) Hq].
  simplify_eq. apply Forall_app. split; [done|].
  apply Forall_forall. intros p' Hp'.
  apply list_elem_of_fmap in Hp' as (n & -> & Hn).
  exists n. rewrite last_snoc. eauto.
Qed.

Lemma layered_head_min (p : list Tile) q p' :
  layered (p :: q) → p' ∈ p :: q → length p ≤ length p'.
Proof.
  intros (k & q1 & q2 & Heq & H1 & H2) Hin.
  destruct q1 as [|h q1]; simpl in Heq; [subst q2|injection Heq as <- ->].
  - rewrite Forall_forall in H2.
    rewrite (H2 p), (H2 p'); [done|done|]. apply elem_of_cons. by left.
  - rewrite app_comm_cons in Hin. apply elem_of_app in Hin as [Hin|Hin].
    + rewrite Forall_forall in H1.
      rewrite (H1 p), (H1 p'); [done|done|]. apply elem_of_cons. by left.
    + apply Forall_cons in H1 as [Hp _].
      rewrite Forall_forall in H2. rewrite (H2 p'); [lia|done].
Qed.

Lemma layered_skip (p : list Tile) q : layered (p :: q) → layered q.
Proof.
  intros (k & q1 & q2 & Heq & H1 & H2).
  destruct q1 as [|h q1]; simpl in Heq; [subst q2|injection Heq as <- ->].
  - apply Forall_cons in H2 as [_ H2]. exists (S k), q, []. 
    rewrite app_nil_r. auto.
  - apply Forall_cons in H1 as [_ H1]. exists k, q1, q2. auto.
Qed.

Lemma layered_expand (p : list Tile) q c :
  layered (p :: q) → layered (q ++ expand p c).
Proof.
  intros (k & q1 & q2 & Heq & H1 & H2).
  assert (∀ m, length p = m →
    Forall (λ p' : list Tile, length p' = S m) (expand p c)) as Hnew.
  { intros m Hm. apply Forall_forall. intros p' Hp'.
    apply list_elem_of_fmap in Hp' as (n & -> & _).
    rewrite length_app. simpl. lia. }
  destruct q1 as [|h q1]; simpl in Heq; [subst q2|injection Heq as <- ->].
  - apply Forall_cons in H2 as [Hp H2]. exists (S k), q, (expand p c).
    auto.
  - apply Forall_cons in H1 as [Hp H1].
    exists k, q1, (q2 ++ expand p c).
    rewrite app_assoc. split; [done|]. split; [done|].
    apply Forall_app. auto.
Qed.

Lemma crosses_skip w (p : list Tile) q v c :
  crosses w (p :: q) v → last p = Some c → c ∈ v → crosses w q v.
Proof.
  intros (w1 & c0 & w2 & Hw & (p0 & Hin & Hl & Hlen) & Hnv) Hlast Hv.
  exists w1, c0, w2. split; [done|]. split; [|done].
  exists p0. split; [|done].
  apply elem_of_cons in Hin as [->|Hin]; [|done].
  assert (c0 = c) as -> by congruence.
  exfalso. apply (Hnv c); [|done]. apply elem_of_cons. by left.
Qed.

Lemma crosses_head_short w (p : list Tile) q v :
  layered (p :: q) → crosses w (p :: q) v → length p ≤ length w.
Proof.
  intros Hlay (w1 & c0 & w2 & -> & (p0 & Hin & _ & Hlen) & _).
  pose proof (layered_head_min _ _ _ Hlay Hin) as Hmin.
  rewrite length_app. simpl. lia.
Qed.

Lemma crosses_expand target w (p : list Tile) q v c :
  layered (p :: q) → adjacent_pairs w → last w = Some target →
  crosses w (p :: q) v → last p = Some c → c ≠ target → c ∉ v →
  crosses w (q ++ expand p c) ({[c]} ∪ v).
Proof.
  intros Hlay Hadj Hend (w1 & c0 & w2 & Hw & (p0 & Hin & Hl & Hlen) & Hnv)
    Hlast Hne Hv.
  pose proof (layered_head_min _ _ _ Hlay Hin) as Hmin.
  destruct (decide (c ∈ c0 :: w2)) as [Hc|Hc].
  - (* the walk still passes through [c]: move past its last visit *)
    apply list_elem_of_split_r in Hc as (l1 & l2 & Hsplit & Hnot).
    rewrite Hsplit in Hw. destruct l2 as [|n l2].
    { exfalso. apply Hne. subst w.
      rewrite app_assoc, last_snoc in Hend. congruence. }
    assert (n ∈ get_neighbors c) as Hn.
    { subst w. rewrite app_assoc in Hadj.
      by eapply adjacent_pairs_app_inv. }
    exists (w1 ++ l1 ++ [c]), n, l2. split.
    { rewrite Hw, <- !app_assoc. done. }
    split.
    + exists (p ++ [n]). split; [|split].
      * apply elem_of_app. right. apply list_elem_of_fmap. eauto.
      * apply last_snoc.
      * rewrite !length_app. simpl. lia.
    + intros t Ht. apply not_elem_of_union. split.
      * intros ->%elem_of_singleton. done.
      * apply Hnv. rewrite Hsplit. apply elem_of_app. right.
        by apply elem_of_cons; right.
  - exists w1, c0, w2. split; [done|]. split.
    + exists p0. split; [|done]. apply elem_of_app. left.
      apply elem_of_cons in Hin as [->|Hin]; [|done].
      assert (c0 = c) as -> by congruence.
      exfalso. apply Hc, elem_of_cons. by left.
    + intros t Ht. apply not_elem_of_union. split; [|by apply Hnv].
      intros ->%elem_of_singleton. done.
Qed.

(** ** What the search returns *)

Lemma from_start_initial A : from_start get_neighbors A [[A]].
Proof. apply Forall_singleton. done. Qed.

(** A returned path is a walk from the start to the target. *)
Lemma bf_pathfinding_walk fuel A B p :
  bf_pathfinding get_neighbors fuel A B = Return (Some p) → is_walk A B p.
Proof.
  intros Hrun.
  pose proof (bf_loop_invariant B (λ q _, from_start get_neighbors A q)) as HI.
  specialize (HI (λ p q v c HF _ _ _, proj2 (proj1 (Forall_cons _ _ _) HF))).
  specialize (HI (λ p q v c HF Hl _ _, from_start_expand A p q c HF Hl)).
  specialize (HI fuel _ _ _ (from_start_initial A) Hrun).
  destruct HI as (Hlast & q' & _ & HF).
  apply Forall_cons in HF as [[Hh Hadj] _]. done.
Qed.

(** On a finite graph the search returns. *)
Lemma bf_pathfinding_returns U A B :
  A ∈ U → closed_under_neighbors get_neighbors U →
  ∃ fuel r, bf_pathfinding get_neighbors fuel A B = Return r.
Proof.
  intros HA Hclosed.
  apply (bf_loop_returns B (λ q _, ends_within U q)) with (U := U).
  - intros p q v c HF _ _ _. by apply Forall_cons in HF as [_ ?].
  - intros p q v c HF Hl _ _. by eapply ends_within_expand.
  - intros p q v HF. apply Forall_cons in HF as [(c & Hc & HU) _]. eauto.
  - apply Forall_singleton. eauto.
Qed.

Lemma search_invariant_initial A B w :
  is_walk A B w → search_invariant get_neighbors A w [[A]] ∅.
Proof.
  intros (Hh & _ & _). split; [apply from_start_initial|]. split.
  - exists 1, [[A]], []. repeat split; [by apply Forall_singleton|done].
  - apply head_Some in Hh as [w' ->]. exists [], A, w'. split; [done|].
    split; [|set_solver]. exists [A]. split; [set_solver|]. done.
Qed.

(** Whenever a walk to the target exists, the search returns a walk that is
    no longer than any other. *)
Lemma bf_pathfinding_shortest A B w :
  is_walk A B w →
  ∃ fuel p, bf_pathfinding get_neighbors fuel A B = Return (Some p) ∧
    is_walk A B p ∧ ∀ w', is_walk A B w' → length p ≤ length w'.
Proof.
  intros Hw.
  assert (∀ w', is_walk A B w' → ∀ p q v c,
    search_invariant get_neighbors A w' (p :: q) v →
    last p = Some c → c ≠ B → c ∈ v →
    search_invariant get_neighbors A w' q v) as Hskip.
  { intros w' _ p q v c (HF & Hlay & Hcr) Hl _ Hv. split; [|split].
    - by apply Forall_cons in HF as [_ ?].
    - by eapply layered_skip.
    - by eapply crosses_skip. }
  assert (∀ w', is_walk A B w' → ∀ p q v c,
    search_invariant get_neighbors A w' (p :: q) v →
    last p = Some c → c ≠ B → c ∉ v →
    search_invariant get_neighbors A w' (q ++ expand p c) ({[c]} ∪ v))
    as Hexp.
  { intros w' (_ & Hend & Hadj) p q v c (HF & Hlay & Hcr) Hl Hne Hv.
    split; [|split].
    - by eapply from_start_expand.
    - by eapply layered_expand.
    - by eapply crosses_expand. }
  destruct (bf_loop_returns B (search_invariant get_neighbors A w)
              (Hskip w Hw) (Hexp w Hw)
              (list_to_set (ball get_neighbors (length w) A))) with
    (q := [[A]]) (v := (∅ : gset Tile)) as (fuel & r & Hrun).
  { intros p q v (HF & Hlay & Hcr).
    pose proof (crosses_head_short _ _ _ _ Hlay Hcr) as Hshort.
    apply Forall_cons in HF as [[Hh Hadj] _].
    destruct (last p) as [c|] eqn:Hl.
    - exists c. split; [done|]. right. right. apply elem_of_list_to_set.
      eapply walk_in_ball; eauto with lia.
    - apply last_None in Hl. subst p. done. }
  { by eapply search_invariant_initial. }
  destruct r as [p|].
  - exists fuel, p. split; [done|]. split; [by eapply bf_pathfinding_walk|].
    intros w' Hw'.
    destruct (bf_loop_invariant B (search_invariant get_neighbors A w')
                (Hskip w' Hw') (Hexp w' Hw') fuel _ _ _
                (search_invariant_initial A B w' Hw') Hrun)
      as (_ & q' & v' & _ & Hlay & Hcr).
    by eapply crosses_head_short.
  - exfalso.
    destruct (bf_loop_invariant B (search_invariant get_neighbors A w)
                (Hskip w Hw) (Hexp w Hw) fuel _ _ _
                (search_invariant_initial A B w Hw) Hrun)
      as (v' & _ & _ & (w1 & c & w2 & _ & (p & Hin & _) & _)).
    by apply elem_of_nil in Hin.
Qed.

(** A walk that starts inside a set closed under [get_neighbors] ends
    inside it. *)
Lemma walk_stays_inside U A B p :
  closed_under_neighbors get_neighbors U → A ∈ U → is_walk A B p → B ∈ U.
Proof.
  intros Hclosed HA (Hh & Hl & Hadj). revert A HA Hh Hl Hadj.
  induction p as [|a [|b r] IH]; intros A HA Hh Hl Hadj.
  - done.
  - simpl in *. by simplify_eq.
  - destruct Hadj as [Hab Hr]. simpl in Hh. simplify_eq.
    apply (IH b); [by eapply Hclosed|done| |done].
    by rewrite last_cons_cons in Hl.
Qed.

(** On a finite graph, an unreachable target makes the search return
    [None], at this and at every larger fuel. *)
Lemma bf_pathfinding_not_found U A B :
  A ∈ U → closed_under_neighbors get_neighbors U →
  ¬ reachable get_neighbors A B →
  ∃ fuel, ∀ fuel', fuel ≤ fuel' →
    bf_pathfinding get_neighbors fuel' A B = Return None.
Proof.
  intros HA Hclosed Hun.
  destruct (bf_pathfinding_returns U A B HA Hclosed) as (fuel & r & Hrun).
  exists fuel. intros fuel' Hle.
  destruct r as [p|].
  - exfalso. apply Hun. exists p. by eapply bf_pathfinding_walk.
  - by eapply bf_loop_fuel_mono.
Qed.

(** ** The claims about the search *)

(** C1: when the target [B] is reachable from the start [A] in the graph of
    [get_neighbors], [bf_pathfinding A B] returns a path from [A] to [B]
    whose hop count (length minus one) is the shortest-hop distance from
    [A] to [B]. *)
Theorem bf_pathfinding_shortest_distance A B :
  reachable get_neighbors A B →
  ∃ fuel p d,
    bf_pathfinding get_neighbors fuel A B = Return (Some p) ∧
    is_walk A B p ∧ hops p = d ∧ shortest_distance get_neighbors A B d.
Proof.
  intros [w Hw].
  destruct (bf_pathfinding_shortest A B w Hw) as (fuel & p & Hrun & Hp & Hmin).
  exists fuel, p, (hops p).
  split; [done|]. split; [done|]. split; [done|]. split.
  - exists p. done.
  - intros w' Hw'. specialize (Hmin w' Hw'). unfold hops. lia.
Qed.

(** C7: in every path [P] that [bf_pathfinding] returns, for any start, any
    target and any adjacency oracle, each [P[i+1]] is a member of
    [get_neighbors(P[i])]. *)
Theorem returned_path_adjacent fuel A B p i a b :
  bf_pathfinding get_neighbors fuel A B = Return (Some p) →
  p !! i = Some a → p !! S i = Some b → b ∈ get_neighbors a.
Proof.
  intros Hrun Ha Hb. apply bf_pathfinding_walk in Hrun as (_ & _ & Hadj).
  by eapply adjacent_pairs_lookup.
Qed.

(** C9: [bf_pathfinding(A, A)] returns the one-tile path [[A]], whatever the
    adjacency oracle is.  One unit of fuel is enough: the first run of the
    loop body returns at [current_tile == target_tile], before the visited
    test and the call of [get_neighbors], which would both need a further
    run of the loop. *)
Theorem bf_pathfinding_same_tile fuel A :
  bf_pathfinding get_neighbors (S fuel) A A = Return (Some [A]).
Proof.
  unfold bf_pathfinding. simpl. by rewrite decide_True.
Qed.

(** C10: on a finite adjacency graph (the start lies in a finite set of
    tiles that contains the neighbours of each of its tiles) the search
    terminates for every start and target: some number of loop iterations
    suffices, and the result is the same for any larger bound. *)
Theorem bf_pathfinding_terminates (U : gset Tile) A B :
  A ∈ U → closed_under_neighbors get_neighbors U →
  ∃ fuel r, ∀ fuel', fuel ≤ fuel' →
    bf_pathfinding get_neighbors fuel' A B = Return r.
Proof.
  intros HA Hclosed.
  destruct (bf_pathfinding_returns U A B HA Hclosed) as (fuel & r & Hrun).
  exists fuel, r. intros fuel' Hle. by eapply bf_loop_fuel_mono.
Qed.

End PathfinderFacts.

(** * Properties of the resolver and the follower *)

Section GamePlayFacts.

Context {Tile : Type} `{Countable Tile}.

Implicit Types (self : GamePlay Tile) (event : pyasge.ClickEvent.t).

Local Abbreviation map_of self := (game_map (data self)).
Local Abbreviation passable self :=
  (λ t, is_tile_passable (game_map (data self)) t = true).

(** ** Ticks *)

Lemma point_eta (pos : pyasge.Point2D) :
  pyasge.mkPoint2D (pyasge.x pos) (pyasge.y pos) = pos.
Proof. by destruct pos. Qed.

Lemma update_game_map self : map_of (update self) = map_of self.
Proof.
  unfold update. destruct (path (data self)) as [[|t rest]|]; try done.
  by destruct (negb _).
Qed.

Lemma update_advance self t rest :
  path (data self) = Some (t :: rest) → passable self t →
  path (data (update self)) = Some rest ∧
  player (data (update self)) = world (map_of self) t.
Proof.
  intros Hp Ht. unfold update. rewrite Hp, Ht. simpl.
  split; [done|]. apply point_eta.
Qed.

Lemma update_blocked self t rest :
  path (data self) = Some (t :: rest) →
  is_tile_passable (map_of self) t = false →
  update self = set_path None self.
Proof. intros Hp Ht. unfold update. by rewrite Hp, Ht. Qed.

(** [S n] ticks over passable tiles consume [S n] tiles and leave the agent
    on the last tile consumed. *)
Lemma ticks_advance n self p t :
  path (data self) = Some p → p !! n = Some t →
  Forall (passable self) (take (S n) p) →
  path (data (ticks (S n) self)) = Some (drop (S n) p) ∧
  player (data (ticks (S n) self)) = world (map_of self) t.
Proof.
  revert self p. induction n as [|n IH]; intros self p Hp Hn Hpass.
  - destruct p as [|t0 rest]; [done|]. simpl in Hn. simplify_eq.
    apply Forall_cons in Hpass as [Ht _]. simpl. rewrite drop_0.
    by apply update_advance.
  - destruct p as [|t0 rest]; [done|]. simpl in Hn.
    rewrite firstn_cons in Hpass. apply Forall_cons in Hpass as [Ht0 Hpass].
    destruct (update_advance self t0 rest Hp Ht0) as [Hp' _].
    change (ticks (S (S n)) self) with (ticks (S n) (update self)).
    rewrite <- (update_game_map self).
    apply (IH (update self) rest); [done|done|].
    by rewrite update_game_map.
Qed.

(** ** The click handler *)

(** A press that turns an Idle follower into a following one ran the search
    from the agent's tile to the pressed tile and installed its result. *)
Lemma click_handler_installs fuel self event self' :
  Idle self → click_handler fuel self event = Return self' → ¬ Idle self' →
  ∃ p, bf_pathfinding (get_neighbors (map_of self)) fuel
         (player_tile self) (click_target self event) = Return (Some p) ∧
       self' = set_path (Some p) self ∧
       passable self (click_target self event).
Proof.
  unfold Idle, click_handler. intros Hidle Hrun Hnot.
  destruct (_ && _); [|by simplify_eq].
  destruct (is_tile_passable _ _) eqn:Hpass; simpl in Hrun; [|by simplify_eq].
  rewrite Hidle in Hrun. simpl in Hrun.
  destruct (bf_pathfinding _ _ _ _) as [| |[p|]]; simplify_eq.
  by exists p.
Qed.

Lemma walk_passable (m : GameMap Tile) A B p :
  is_tile_passable m A = true →
  (∀ t n, n ∈ get_neighbors m t → is_tile_passable m n = true) →
  is_walk (get_neighbors m) A B p →
  Forall (λ t, is_tile_passable m t = true) p.
Proof.
  intros HA Hnb (Hh & _ & Hadj). revert A HA Hh Hadj.
  induction p as [|a [|b r] IH]; intros A HA Hh Hadj.
  - done.
  - simpl in Hh. injection Hh as ->. by apply Forall_singleton.
  - simpl in Hh. injection Hh as ->. destruct Hadj as [Hab Hr].
    apply Forall_cons. split; [done|].
    apply (IH b); [by eapply Hnb|done|done].
Qed.

(** ** The claims about the resolver and the follower *)

(** C2, as the code has it: a path freshly installed by the click handler
    runs from the agent's current tile, which is its head, to the pressed
    tile, which is its last tile; the agent has not moved yet.  After every
    tick that advances, the agent stands at the world position of the tile
    just removed, and the active path holds the tiles after it. *)
Theorem installed_path_from_agent_tile fuel self event self' :
  Idle self → click_handler fuel self event = Return self' → ¬ Idle self' →
  ∃ rest,
    let p := player_tile self :: rest in
    path (data self') = Some p ∧
    last p = Some (click_target self event) ∧
    player (data self') = player (data self) ∧
    ∀ n t, p !! n = Some t → Forall (passable self) (take (S n) p) →
      path (data (ticks (S n) self')) = Some (drop (S n) p) ∧
      player (data (ticks (S n) self')) = world (map_of self) t.
Proof.
  intros Hidle Hrun Hnot.
  destruct (click_handler_installs _ _ _ _ Hidle Hrun Hnot)
    as (p & Hsearch & -> & _).
  apply bf_pathfinding_walk in Hsearch as (Hh & Hl & _).
  apply head_Some in Hh as [rest ->].
  exists rest. cbv zeta. split; [done|]. split; [done|]. split; [done|].
  intros n t Hn Hpass.
  exact (ticks_advance n (set_path (Some (player_tile self :: rest)) self)
           _ t eq_refl Hn Hpass).
Qed.

(** C4: a tick that finds the head tile of the active path impassable
    discards the whole path, so the follower is Idle, and leaves the agent
    where it was. *)
Theorem obstructed_tick_discards_path self t rest :
  path (data self) = Some (t :: rest) →
  is_tile_passable (map_of self) t = false →
  path (data (update self)) = None ∧ Idle (update self) ∧
  player (data (update self)) = player (data self).
Proof.
  intros Hp Ht. by rewrite (update_blocked self t rest Hp Ht).
Qed.

(** C5: with the active path [[T1; T2; T3]] and the three tiles passable,
    the first tick puts the agent at [world(T1)], the second at
    [world(T2)], the third at [world(T3)]; each tick removes one tile, and
    after the third the path is empty and the follower Idle. *)
Theorem three_ticks_follow_path self T1 T2 T3 :
  path (data self) = Some [T1; T2; T3] →
  passable self T1 → passable self T2 → passable self T3 →
  player (data (ticks 1 self)) = world (map_of self) T1 ∧
  path (data (ticks 1 self)) = Some [T2; T3] ∧
  player (data (ticks 2 self)) = world (map_of self) T2 ∧
  path (data (ticks 2 self)) = Some [T3] ∧
  player (data (ticks 3 self)) = world (map_of self) T3 ∧
  path (data (ticks 3 self)) = Some [] ∧
  Idle (ticks 3 self).
Proof.
  intros Hp H1 H2 H3.
  assert (Forall (passable self) [T1; T2; T3]) as Hall.
  { repeat (apply Forall_cons; split; [done|]). apply Forall_nil. done. }
  destruct (ticks_advance 0 self _ T1 Hp eq_refl) as [Hp1 Hpos1].
  { by apply Forall_take. }
  destruct (ticks_advance 1 self _ T2 Hp eq_refl) as [Hp2 Hpos2].
  { by apply Forall_take. }
  destruct (ticks_advance 2 self _ T3 Hp eq_refl) as [Hp3 Hpos3].
  { by apply Forall_take. }
  unfold Idle. rewrite Hp3. done.
Qed.

(** C6, on a finite graph: when the target [B] is not reachable from the
    start [A] and the tiles reachable from [A] lie in a finite set, the
    search empties the queue and returns [None]; a press that starts this
    search from an Idle follower returns normally, installs no path (the
    follower stays Idle) and does not move the agent. *)
Theorem unreachable_target_not_found (m : GameMap Tile) (U : gset Tile) A B :
  A ∈ U → closed_under_neighbors (get_neighbors m) U →
  ¬ reachable (get_neighbors m) A B →
  ∃ fuel, ∀ fuel', fuel ≤ fuel' →
    bf_pathfinding (get_neighbors m) fuel' A B = Return None ∧
    ∀ self event,
      map_of self = m → player_tile self = A → click_target self event = B →
      Idle self →
      ∃ self', click_handler fuel' self event = Return self' ∧
        Idle self' ∧ player (data self') = player (data self).
Proof.
  intros HA Hclosed Hun.
  destruct (bf_pathfinding_not_found _ U A B HA Hclosed Hun) as [fuel Hnone].
  exists fuel. intros fuel' Hle. specialize (Hnone fuel' Hle).
  split; [done|]. intros self event <- <- <- Hidle.
  unfold click_handler. destruct (_ && _); [|by exists self].
  destruct (is_tile_passable _ _); simpl; [|by exists self].
  unfold Idle in Hidle. rewrite Hidle, Hnone. simpl.
  by exists (set_path None self).
Qed.

(** C8, as the code has it: the search never asks [is_tile_passable].  The
    last tile of a path installed by the click handler is passable, the
    handler having checked the pressed tile; all its tiles are passable
    when the agent's own tile is and [get_neighbors] lists passable tiles
    only. *)
Theorem installed_path_passable fuel self event self' p :
  Idle self → click_handler fuel self event = Return self' →
  path (data self') = Some p →
  (∀ t, last p = Some t → passable self t) ∧
  (passable self (player_tile self) →
   (∀ t n, n ∈ get_neighbors (map_of self) t → passable self n) →
   Forall (passable self) p).
Proof.
  intros Hidle Hrun Hp.
  destruct (truthy (path (data self'))) eqn:Hidle'.
  - assert (¬ Idle self') as Hnot by (unfold Idle; congruence).
    destruct (click_handler_installs _ _ _ _ Hidle Hrun Hnot)
      as (p' & Hsearch & -> & Htarget).
    simpl in Hp. injection Hp as ->.
    apply bf_pathfinding_walk in Hsearch. split.
    + destruct Hsearch as (_ & Hl & _). intros t Ht. congruence.
    + intros Hstart Hnb. by eapply walk_passable.
  - rewrite Hp in Hidle'.
    destruct p; [|done]. split; [done|]. intros _ _. apply Forall_nil. done.
Qed.

End GamePlayFacts.

(** * Concrete runs *)

(** ** The sample map *)

Lemma closed_by_elements {Tile : Type} `{Countable Tile}
    (get_neighbors : Tile → list Tile) (U : gset Tile) :
  Forall (λ t, Forall (λ n, n ∈ U) (get_neighbors t)) (elements U) →
  closed_under_neighbors get_neighbors U.
Proof.
  intros Hall t n Ht Hn. rewrite Forall_forall in Hall.
  specialize (Hall t). rewrite elem_of_elements in Hall.
  specialize (Hall Ht). rewrite Forall_forall in Hall. by apply Hall.
Qed.

Lemma sample_region_closed :
  closed_under_neighbors sample_neighbors sample_region.
Proof.
  apply closed_by_elements. apply (bool_decide_unpack _). by vm_compute.
Qed.

Lemma sample_walled_in : ¬ reachable sample_neighbors (0, 0) (2, 0).
Proof.
  intros [p Hp].
  apply (walk_stays_inside _ sample_region) in Hp.
  - revert Hp. apply (bool_decide_unpack _). by vm_compute.
  - exact sample_region_closed.
  - apply (bool_decide_unpack _). by vm_compute.
Qed.

Lemma sample_walk :
  is_walk sample_neighbors (0, 0) (2, 2)
    [(0, 0); (0, 1); (0, 2); (1, 2); (2, 2)].
Proof.
  repeat split; apply (bool_decide_unpack _); by vm_compute.
Qed.

(** ** The endless corridor *)

Lemma corridor_loop fuel p c (v : gset nat) :
  last p = Some c → c ≠ 0 → (∀ t, t ∈ v → t < c) →
  bf_loop corridor_neighbors 0 fuel [p] v = OutOfFuel.
Proof.
  revert p c v. induction fuel as [|fuel IH]; intros p c v Hl Hc Hv; [done|].
  simpl. rewrite Hl, decide_False by done.
  rewrite decide_False by (intros Hin; apply Hv in Hin; lia).
  apply (IH _ (S c)); [apply last_snoc|done|].
  intros t [->%elem_of_singleton|Hin%Hv]%elem_of_union; lia.
Qed.

Lemma corridor_walk_climbs p a b :
  head p = Some a → last p = Some b →
  adjacent_pairs corridor_neighbors p → a ≤ b.
Proof.
  revert a. induction p as [|x [|y r] IH]; intros a Hh Hl Hadj.
  - done.
  - simpl in *. simplify_eq. done.
  - simpl in Hh. injection Hh as ->. destruct Hadj as [Hxy Hr].
    apply list_elem_of_singleton in Hxy. subst y.
    rewrite last_cons_cons in Hl.
    specialize (IH (S a) eq_refl Hl Hr). lia.
Qed.

(** ** The claims on concrete input *)

(** On the sample map the search from (0,0) to (2,2) returns a shortest
    path. *)
Lemma bf_pathfinding_shortest_distance_sample :
  reachable sample_neighbors (0, 0) (2, 2) ∧
  ∃ fuel p d,
    bf_pathfinding sample_neighbors fuel (0, 0) (2, 2) = Return (Some p) ∧
    is_walk sample_neighbors (0, 0) (2, 2) p ∧ hops p = d ∧
    shortest_distance sample_neighbors (0, 0) (2, 2) d.
Proof.
  assert (reachable sample_neighbors (0, 0) (2, 2)) as Hreach.
  { eexists. exact sample_walk. }
  split; [exact Hreach|].
  exact (bf_pathfinding_shortest_distance sample_neighbors (0, 0) (2, 2) Hreach).
Defined.

(** The second step of the path found on the sample map is an edge. *)
Lemma returned_path_adjacent_sample :
  bf_pathfinding sample_neighbors 100 (0, 0) (2, 2)
    = Return (Some [(0, 0); (0, 1); (0, 2); (1, 2); (2, 2)]) ∧
  (0, 2) ∈ sample_neighbors (0, 1).
Proof.
  assert (bf_pathfinding sample_neighbors 100 (0, 0) (2, 2)
            = Return (Some [(0, 0); (0, 1); (0, 2); (1, 2); (2, 2)])) as Hrun.
  { vm_compute. reflexivity. }
  split; [exact Hrun|].
  exact (returned_path_adjacent sample_neighbors 100 (0, 0) (2, 2) _ 1
           (0, 1) (0, 2) Hrun eq_refl eq_refl).
Defined.

(** The search on the sample map terminates, also for the walled-in tile. *)
Lemma bf_pathfinding_terminates_sample :
  ∃ fuel r, ∀ fuel', fuel ≤ fuel' →
    bf_pathfinding sample_neighbors fuel' (0, 0) (2, 0) = Return r.
Proof.
  apply (bf_pathfinding_terminates sample_neighbors sample_region).
  - apply (bool_decide_unpack _). vm_compute. exact I.
  - exact sample_region_closed.
Defined.

(** A press on (2,2) with the agent on (0,0): the installed path starts with
    the agent's tile. *)
Lemma installed_path_from_agent_tile_sample :
  ∃ rest,
    path (data (set_path (Some [(0, 0); (0, 1); (0, 2); (1, 2); (2, 2)])
                  (sample_play sample_map None (0, 0) 0)))
      = Some ((0, 0) :: rest) ∧
    last ((0, 0) :: rest) = Some (2, 2).
Proof.
  pose (self := sample_play sample_map None (0, 0) 0).
  pose (self' := set_path (Some [(0, 0); (0, 1); (0, 2); (1, 2); (2, 2)]) self).
  assert (Idle self) as Hidle by reflexivity.
  assert (click_handler 100 self (press 70 70) = Return self') as Hrun.
  { vm_compute. reflexivity. }
  assert (¬ Idle self') as Hnot by discriminate.
  destruct (installed_path_from_agent_tile 100 self (press 70 70) self'
              Hidle Hrun Hnot) as (rest & Hp & Hl & _).
  exists rest. split; [exact Hp|exact Hl].
Defined.

(** A tick with the wall (1,0) at the head of the path. *)
Lemma obstructed_tick_discards_path_sample :
  Idle (update (sample_play sample_map (Some [(1, 0); (2, 0)]) (0, 0) 0)) ∧
  player (data (update
    (sample_play sample_map (Some [(1, 0); (2, 0)]) (0, 0) 0)))
    = sample_world (0, 0).
Proof.
  destruct (obstructed_tick_discards_path
              (sample_play sample_map (Some [(1, 0); (2, 0)]) (0, 0) 0)
              (1, 0) [(2, 0)] eq_refl eq_refl) as (_ & Hidle & Hpos).
  split; [exact Hidle|exact Hpos].
Defined.

(** Three ticks down the left column of the sample map. *)
Lemma three_ticks_follow_path_sample :
  player (data (ticks 3
    (sample_play sample_map (Some [(0, 0); (0, 1); (0, 2)]) (1, 2) 0)))
    = sample_world (0, 2) ∧
  Idle (ticks 3
    (sample_play sample_map (Some [(0, 0); (0, 1); (0, 2)]) (1, 2) 0)).
Proof.
  destruct (three_ticks_follow_path
              (sample_play sample_map (Some [(0, 0); (0, 1); (0, 2)]) (1, 2) 0)
              (0, 0) (0, 1) (0, 2) eq_refl eq_refl eq_refl eq_refl)
    as (_ & _ & _ & _ & Hpos & _ & Hidle).
  split; [exact Hpos|exact Hidle].
Defined.

(** The walled-in tile (2,0) of the sample map is not found. *)
Lemma unreachable_target_not_found_sample :
  ∃ fuel, ∀ fuel', fuel ≤ fuel' →
    bf_pathfinding sample_neighbors fuel' (0, 0) (2, 0) = Return None.
Proof.
  destruct (unreachable_target_not_found sample_map sample_region
              (0, 0) (2, 0)) as [fuel Hfuel].
  - apply (bool_decide_unpack _). vm_compute. exact I.
  - exact sample_region_closed.
  - exact sample_walled_in.
  - exists fuel. intros fuel' Hle. exact (proj1 (Hfuel fuel' Hle)).
Defined.

(** The path installed on the sample map ends on a passable tile. *)
Lemma installed_path_passable_sample :
  sample_passable (2, 2) = true.
Proof.
  pose (self := sample_play sample_map None (0, 0) 0).
  pose (self' := set_path (Some [(0, 0); (0, 1); (0, 2); (1, 2); (2, 2)]) self).
  assert (Idle self) as Hidle by reflexivity.
  assert (click_handler 100 self (press 70 70) = Return self') as Hrun.
  { vm_compute. reflexivity. }
  exact (proj1 (installed_path_passable 100 self (press 70 70) self' _
                  Hidle Hrun eq_refl) (2, 2) eq_refl).
Defined.

(** ** Where the code departs from the text *)

(** C2 fails as stated: on the sample map, with the agent on tile (0,0), a
    press on tile (2,2) installs a path whose head is (0,0), the tile the
    agent is standing on. *)
Lemma fresh_path_head_is_agent_tile :
  ∃ self',
    click_handler 100 (sample_play sample_map None (0, 0) 0) (press 70 70)
      = Return self' ∧
    path (data self') = Some [(0, 0); (0, 1); (0, 2); (1, 2); (2, 2)] ∧
    player_tile self' = (0, 0) ∧
    head [(0, 0); (0, 1); (0, 2); (1, 2); (2, 2)] = Some (player_tile self').
Proof.
  exists (set_path (Some [(0, 0); (0, 1); (0, 2); (1, 2); (2, 2)])
            (sample_play sample_map None (0, 0) 0)).
  repeat split; vm_compute; reflexivity.
Qed.

(** C3: the click handler hands the raw event coordinates to [tile] and
    never calls [to_world].  With the camera showing the world from x = 32
    on, a press at screen position (8, 70) lies over world position
    (40, 70), which is tile (1,2); the handler resolves it to tile (0,2) and
    installs a path that ends there. *)
Theorem click_handler_skips_to_world :
  to_world (sample_play sample_map None (0, 0) 32) (pyasge.mkPoint2D 8 70)
    = pyasge.mkPoint2D 40 70 ∧
  tile sample_map
    (to_world (sample_play sample_map None (0, 0) 32) (pyasge.mkPoint2D 8 70))
    = (1, 2) ∧
  click_target (sample_play sample_map None (0, 0) 32) (press 8 70) = (0, 2) ∧
  ∃ self',
    click_handler 100 (sample_play sample_map None (0, 0) 32) (press 8 70)
      = Return self' ∧
    path (data self') = Some [(0, 0); (0, 1); (0, 2)].
Proof.
  split; [vm_compute; reflexivity|].
  split; [vm_compute; reflexivity|].
  split; [vm_compute; reflexivity|].
  exists (set_path (Some [(0, 0); (0, 1); (0, 2)])
            (sample_play sample_map None (0, 0) 32)).
  split; vm_compute; reflexivity.
Qed.

(** C6 fails as stated: in the endless corridor tile 0 cannot be reached
    from tile 1, yet the search from 1 to 0 never returns; whatever the
    bound on the loop iterations, it is still running. *)
Lemma endless_corridor_never_returns :
  ¬ reachable corridor_neighbors 1 0 ∧
  ∀ fuel, bf_pathfinding corridor_neighbors fuel 1 0 = OutOfFuel.
Proof.
  split.
  - intros (p & Hh & Hl & Hadj).
    pose proof (corridor_walk_climbs p 1 0 Hh Hl Hadj). lia.
  - intros fuel. apply (corridor_loop fuel [1] 1); [done|done|].
    intros t Ht. by apply elem_of_empty in Ht.
Qed.

(** C8 fails as stated: on the grid whose adjacency query does not look at
    walls, with the agent on the wall tile (1,1), a press on the passable
    tile (2,0) installs the path (1,1), (1,0), (2,0), whose first two tiles
    are impassable. *)
Lemma installed_path_through_walls :
  ∃ self',
    click_handler 100 (sample_play open_map None (1, 1) 0) (press 70 8)
      = Return self' ∧
    path (data self') = Some [(1, 1); (1, 0); (2, 0)] ∧
    is_tile_passable open_map (1, 1) = false ∧
    is_tile_passable open_map (1, 0) = false.
Proof.
  exists (set_path (Some [(1, 1); (1, 0); (2, 0)])
            (sample_play open_map None (1, 1) 0)).
  repeat split; vm_compute; reflexivity.
Qed.

(** * Further properties of the search *)

Section PathfinderMore.

Context {Tile : Type} `{Countable Tile}.
Variable get_neighbors : Tile → list Tile.

Local Abbreviation bf_loop := (bf_loop get_neighbors).
Local Abbreviation bf_pathfinding := (bf_pathfinding get_neighbors).
Local Abbreviation adjacent_pairs := (adjacent_pairs get_neighbors).
Local Abbreviation is_walk := (is_walk get_neighbors).
Local Abbreviation reachable := (reachable get_neighbors).

(** Two runs that both finish agree, whatever their fuel. *)
Lemma bf_loop_fuel_agree target f1 f2 queue visited o1 o2 :
  bf_loop target f1 queue visited = o1 → o1 ≠ OutOfFuel →
  bf_loop target f2 queue visited = o2 → o2 ≠ OutOfFuel →
  o1 = o2.
Proof.
  intros H1 Hn1 H2 Hn2.
  pose proof (bf_loop_fuel_mono get_neighbors _ _ (f1 `max` f2) _ _ _
                H1 Hn1 ltac:(lia)) as E1.
  pose proof (bf_loop_fuel_mono get_neighbors _ _ (f1 `max` f2) _ _ _
                H2 Hn2 ltac:(lia)) as E2.
  congruence.
Qed.

(** Every path the search returns is a shortest walk. *)
Lemma bf_pathfinding_minimal fuel A B p w :
  bf_pathfinding fuel A B = Return (Some p) → is_walk A B w →
  length p ≤ length w.
Proof.
  intros Hrun Hw.
  destruct (bf_pathfinding_shortest get_neighbors A B w Hw)
    as (fuel' & p' & Hrun' & _ & Hmin).
  assert (Return (Some p) = Return (Some p')) as Heq.
  { eapply bf_loop_fuel_agree; [exact Hrun|done|exact Hrun'|done]. }
  injection Heq as ->. by apply Hmin.
Qed.

Lemma adjacent_pairs_suffix l r :
  adjacent_pairs (l ++ r) → adjacent_pairs r.
Proof.
  induction l as [|a [|b l] IH]; simpl; [done| |].
  - destruct r; [done|]. by intros [_ ?].
  - intros [_ Hr]. by apply IH.
Qed.

(** A walk that passes a tile twice can be cut short. *)
Lemma walk_shortcut A B p :
  is_walk A B p → ¬ NoDup p →
  ∃ p', is_walk A B p' ∧ length p' < length p.
Proof.
  revert A. induction p as [|a r IH]; intros A (Hh & Hl & Hadj) Hdup.
  - done.
  - simpl in Hh. injection Hh as <-.
    destruct (decide (a ∈ r)) as [Hin|Hin].
    + apply list_elem_of_split in Hin as (l2 & l3 & ->).
      exists (a :: l3). split; [split; [done|split]|].
      * change (a :: l2 ++ a :: l3) with ((a :: l2) ++ a :: l3) in Hl.
        by rewrite last_app_cons in Hl.
      * apply (adjacent_pairs_suffix (a :: l2)). exact Hadj.
      * simpl. rewrite length_app. simpl. lia.
    + assert (¬ NoDup r) as Hr.
      { intros Hnd. apply Hdup. by apply NoDup_cons. }
      destruct r as [|b r]; [destruct Hr; apply NoDup_nil_2|].
      destruct Hadj as [Hab Hadj]. rewrite last_cons_cons in Hl.
      destruct (IH b (conj eq_refl (conj Hl Hadj)) Hr)
        as (p' & (Hh' & Hl' & Hadj') & Hlen).
      apply head_Some in Hh' as [r' ->].
      exists (a :: b :: r'). split; [split; [done|split]|].
      * by rewrite last_cons_cons.
      * split; done.
      * simpl in *. lia.
Qed.

(** Every tile of a walk that starts inside a closed set lies inside it. *)
Lemma walk_tiles_inside U A B p :
  closed_under_neighbors get_neighbors U → A ∈ U → is_walk A B p →
  ∀ t, t ∈ p → t ∈ U.
Proof.
  intros Hclosed HA (Hh & _ & Hadj). revert A HA Hh Hadj.
  induction p as [|a [|b r] IH]; intros A HA Hh Hadj t Ht.
  - by apply elem_of_nil in Ht.
  - simpl in Hh. injection Hh as ->.
    by apply list_elem_of_singleton in Ht as ->.
  - simpl in Hh. injection Hh as ->. destruct Hadj as [Hab Hr].
    apply elem_of_cons in Ht as [->|Ht]; [done|].
    apply (IH b); [by eapply Hclosed|done|done|done].
Qed.

Lemma bf_loop_no_raise target fuel queue visited :
  Forall (λ p : list Tile, p ≠ []) queue →
  bf_loop target fuel queue visited = OutOfFuel ∨
  ∃ r, bf_loop target fuel queue visited = Return r.
Proof.
  revert queue visited.
  induction fuel as [|fuel IH]; intros queue visited Hne; [by left|].
  simpl. destruct queue as [|p queue]; [right; by eexists|].
  apply Forall_cons in Hne as [Hp Hq].
  destruct (last p) as [c|] eqn:Hl; [|by apply last_None in Hl].
  destruct (decide (c = target)); [right; by eexists|].
  destruct (decide (c ∈ visited)); apply IH; [done|].
  apply Forall_app. split; [done|].
  apply Forall_forall. intros p' (n' & -> & _)%list_elem_of_fmap.
  by destruct p.
Qed.

(** ** More on what the search returns *)

(** X1: [bf_pathfinding] never raises: [path[-1]] is only ever taken of a
    non-empty path, so a run either is still going when the iteration bound
    is reached or returns. *)
Theorem bf_pathfinding_never_raises fuel A B :
  bf_pathfinding fuel A B = OutOfFuel ∨
  ∃ r, bf_pathfinding fuel A B = Return r.
Proof.
  apply bf_loop_no_raise. by apply Forall_singleton.
Qed.

(** X2: a returned path begins with the start tile and ends with the target
    tile, for any adjacency oracle. *)
Theorem returned_path_endpoints fuel A B p :
  bf_pathfinding fuel A B = Return (Some p) →
  head p = Some A ∧ last p = Some B.
Proof.
  intros Hrun.
  apply (bf_pathfinding_walk get_neighbors) in Hrun as (Hh & Hl & _). done.
Qed.

(** X3: when the target is reachable, a run that returns never returns
    [None]; what it returns is a walk to the target that no other walk
    undercuts in length. *)
Theorem reachable_target_is_found fuel A B r :
  reachable A B → bf_pathfinding fuel A B = Return r →
  ∃ p, r = Some p ∧ is_walk A B p ∧
    ∀ w, is_walk A B w → length p ≤ length w.
Proof.
  intros [w Hw] Hrun.
  destruct (bf_pathfinding_shortest get_neighbors A B w Hw)
    as (fuel' & p & Hrun' & Hp & Hmin).
  exists p. split; [|done].
  assert (Return r = Return (Some p)) as Heq; [|congruence].
  eapply bf_loop_fuel_agree; [exact Hrun|done|exact Hrun'|done].
Qed.

(** X4: a returned path visits no tile twice. *)
Theorem returned_path_no_repeat fuel A B p :
  bf_pathfinding fuel A B = Return (Some p) → NoDup p.
Proof.
  intros Hrun. destruct (decide (NoDup p)) as [|Hdup]; [done|exfalso].
  pose proof (bf_pathfinding_walk get_neighbors _ _ _ _ Hrun) as Hp.
  destruct (walk_shortcut A B p Hp Hdup) as (w & Hw & Hlen).
  pose proof (bf_pathfinding_minimal fuel A B p w Hrun Hw). lia.
Qed.

(** X5: on a finite graph a returned path has no more tiles than the
    graph. *)
Theorem returned_path_length_bound (U : gset Tile) fuel A B p :
  A ∈ U → closed_under_neighbors get_neighbors U →
  bf_pathfinding fuel A B = Return (Some p) → length p ≤ size U.
Proof.
  intros HA Hclosed Hrun.
  assert (NoDup p) as Hnd.
  { destruct (decide (NoDup p)) as [|Hdup]; [done|exfalso].
    pose proof (bf_pathfinding_walk get_neighbors _ _ _ _ Hrun) as Hp.
    destruct (walk_shortcut A B p Hp Hdup) as (w & Hw & Hlen).
    pose proof (bf_pathfinding_minimal fuel A B p w Hrun Hw). lia. }
  pose proof (bf_pathfinding_walk get_neighbors _ _ _ _ Hrun) as Hp.
  change (size U) with (length (elements U)).
  apply submseteq_length, NoDup_submseteq; [done|].
  intros t Ht. apply elem_of_elements. by eapply walk_tiles_inside.
Qed.

(** X6: a start tile without neighbours is a dead end: the search for any
    other tile returns [None] in its second run of the loop. *)
Theorem dead_end_start_not_found fuel A B :
  get_neighbors A = [] → A ≠ B →
  bf_pathfinding (S (S fuel)) A B = Return None.
Proof.
  intros Hnb Hne.
  change (bf_loop B (S (S fuel)) [[A]] ∅ = Return None). simpl.
  rewrite decide_False by done. rewrite decide_False by set_solver.
  by rewrite Hnb.
Qed.

(** X7: a target that is a neighbour of the start, and not the start
    itself, is reached by the two-tile path. *)
Theorem neighbor_target_direct_path A B :
  B ∈ get_neighbors A → A ≠ B →
  ∃ fuel, bf_pathfinding fuel A B = Return (Some [A; B]).
Proof.
  intros Hnb Hne.
  assert (is_walk A B [A; B]) as Hw by (repeat split; done).
  destruct (bf_pathfinding_shortest get_neighbors A B _ Hw)
    as (fuel & p & Hrun & (Hh & Hl & _) & Hmin).
  exists fuel. rewrite Hrun. do 2 f_equal.
  specialize (Hmin _ Hw). simpl in Hmin.
  destruct p as [|a [|b [|c r]]]; simpl in *; simplify_eq; [done|lia].
Qed.

End PathfinderMore.

(** * Further properties of the resolver and the follower *)

Section GamePlayMore.

Context {Tile : Type} `{Countable Tile}.

Implicit Types (self : GamePlay Tile) (event : pyasge.ClickEvent.t).

Local Abbreviation map_of self := (game_map (data self)).
Local Abbreviation passable self :=
  (λ t, is_tile_passable (game_map (data self)) t = true).

Lemma set_path_same self : set_path (path (data self)) self = self.
Proof. by destruct self as [[] ?]. Qed.

Lemma update_idle self : Idle self → update self = self.
Proof.
  unfold Idle, update. by destruct (path (data self)) as [[|t rest]|].
Qed.

Lemma ticks_idle n self : Idle self → ticks n self = self.
Proof.
  intros Hidle. induction n as [|n IH]; [done|].
  simpl. by rewrite update_idle.
Qed.

Lemma update_step self t rest :
  path (data self) = Some (t :: rest) →
  (is_tile_passable (map_of self) t = false ∧
   update self = set_path None self) ∨
  (passable self t ∧ path (data (update self)) = Some rest ∧
   player (data (update self)) = world (map_of self) t ∧
   map_of (update self) = map_of self).
Proof.
  intros Hp. destruct (is_tile_passable (map_of self) t) eqn:Ht.
  - right. destruct (update_advance self t rest Hp Ht) as [? ?].
    by rewrite update_game_map.
  - left. split; [done|]. by apply (update_blocked self t rest).
Qed.

(** ** More on the click handler *)

(** X8: the click handler never raises, and a call that returns hands back
    the state it was given with at most [self.data.path] replaced: the
    agent, the map, the window size and the camera are never written. *)
Theorem click_handler_only_sets_path fuel self event :
  click_handler fuel self event = OutOfFuel ∨
  ∃ p, click_handler fuel self event = Return (set_path p self).
Proof.
  unfold click_handler.
  assert (∃ p, Return self = Return (set_path p self)) as Hsame.
  { exists (path (data self)). by rewrite set_path_same. }
  destruct (_ && _); [|by right].
  destruct (negb (is_tile_passable _ _)); [by right|].
  destruct (negb (truthy _)); [|by right].
  destruct (bf_pathfinding_never_raises
              (get_neighbors (map_of self)) fuel (player_tile self)
              (click_target self event)) as [->|[r ->]]; [by left|].
  right. by exists r.
Qed.

(** X9: the click handler changes the active path only for a press of
    button 1 on a passable tile while the follower is Idle, and then the
    new path is what the search from the agent's tile to the pressed tile
    returned. *)
Theorem click_handler_changes_path_only_when fuel self event self' :
  click_handler fuel self event = Return self' →
  path (data self') ≠ path (data self) →
  pyasge.ClickEvent.button event = pyasge.MOUSE.MOUSE_BTN1 ∧
  pyasge.ClickEvent.action event = pyasge.MOUSE.BUTTON_PRESSED ∧
  passable self (click_target self event) ∧
  Idle self ∧
  bf_pathfinding (get_neighbors (map_of self)) fuel
    (player_tile self) (click_target self event)
    = Return (path (data self')).
Proof.
  unfold click_handler, Idle. intros Hrun Hchg.
  destruct (pyasge.ClickEvent.button event) eqn:Hb; simpl in Hrun;
    try (by simplify_eq).
  destruct (pyasge.ClickEvent.action event) eqn:Ha; simpl in Hrun;
    try (by simplify_eq).
  destruct (is_tile_passable _ _) eqn:Hpass; simpl in Hrun;
    [|by simplify_eq].
  destruct (truthy _) eqn:Hidle; simpl in Hrun; [by simplify_eq|].
  destruct (bf_pathfinding _ _ _ _) as [| |r]; simplify_eq. done.
Qed.

(** ** More on the follower *)

(** X10: without an active path ticks do nothing, however many there
    are. *)
Theorem idle_ticks_do_nothing n self : Idle self → ticks n self = self.
Proof.
  intros Hidle. induction n as [|n IH]; [done|].
  change (ticks (S n) self) with (ticks n (update self)).
  by rewrite (update_idle self Hidle).
Qed.

(** X11: the follower is Idle after as many ticks as the active path has
    tiles, whether the tiles are passable or not. *)
Theorem follower_idle_within_path_length self p :
  path (data self) = Some p → Idle (ticks (length p) self).
Proof.
  revert self. induction p as [|t rest IH]; intros self Hp.
  - unfold Idle. simpl. by rewrite Hp.
  - change (ticks (length (t :: rest)) self)
      with (ticks (length rest) (update self)).
    destruct (update_step self t rest Hp) as [[_ ->]|(_ & Hp' & _)].
    + by rewrite ticks_idle.
    + by apply IH.
Qed.

(** X12: ticks never reorder or add tiles: after [n] ticks the active path
    is either discarded or the installed path without its first [n]
    tiles. *)
Theorem active_path_stays_suffix n self p :
  path (data self) = Some p →
  path (data (ticks n self)) = None ∨
  path (data (ticks n self)) = Some (drop n p).
Proof.
  revert self p. induction n as [|n IH]; intros self p Hp.
  - right. by rewrite drop_0.
  - simpl. destruct p as [|t rest].
    + rewrite update_idle by (unfold Idle; by rewrite Hp).
      destruct (IH self [] Hp) as [?|Hn]; [by left|right].
      by rewrite drop_nil in Hn.
    + destruct (update_step self t rest Hp) as [[_ ->]|(_ & Hp' & _)].
      * left. by rewrite ticks_idle.
      * by apply IH.
Qed.

(** X13: whatever happens to the path, the agent is only ever moved to the
    world position of a tile of the active path that was passable when the
    agent reached it. *)
Theorem agent_only_on_passable_path_tiles n self p :
  path (data self) = Some p →
  player (data (ticks n self)) = player (data self) ∨
  ∃ t, t ∈ p ∧ passable self t ∧
    player (data (ticks n self)) = world (map_of self) t.
Proof.
  revert self p. induction n as [|n IH]; intros self p Hp; [by left|].
  simpl. destruct p as [|t rest].
  - rewrite update_idle by (unfold Idle; by rewrite Hp).
    rewrite ticks_idle by (unfold Idle; by rewrite Hp). by left.
  - destruct (update_step self t rest Hp)
      as [[_ ->]|(Ht & Hp' & Hpos & Hmap)].
    + rewrite ticks_idle by done. by left.
    + right. destruct (IH (update self) rest Hp') as [->|(t' & Hin & Ht' & ->)].
      * exists t. split; [by left|]. done.
      * exists t'. rewrite Hmap in *. split; [by right|]. done.
Qed.

(** X14: when the first impassable tile of the active path comes after
    [k] passable ones, tick [k + 1] discards the path and the agent rests at
    the world position of the last tile before the obstruction (where it
    was, if the obstruction is the head). *)
Theorem obstruction_stops_agent_before self l1 t l2 :
  path (data self) = Some (l1 ++ t :: l2) →
  Forall (passable self) l1 →
  is_tile_passable (map_of self) t = false →
  path (data (ticks (S (length l1)) self)) = None ∧
  player (data (ticks (S (length l1)) self))
    = from_option (world (map_of self)) (player (data self)) (last l1).
Proof.
  revert self. induction l1 as [|a l1 IH]; intros self Hp Hpass Ht.
  - simpl in *. by rewrite (update_blocked self t l2 Hp Ht).
  - apply Forall_cons in Hpass as [Ha Hpass].
    destruct (update_advance self a (l1 ++ t :: l2) Hp Ha) as [Hp' Hpos].
    change (ticks (S (length (a :: l1))) self)
      with (ticks (S (length l1)) (update self)).
    destruct (IH (update self) Hp') as [Hnone Hrest].
    { by rewrite update_game_map. }
    { by rewrite update_game_map. }
    split; [done|]. rewrite Hrest, update_game_map, Hpos.
    destruct l1 as [|b l1]; [done|]. rewrite last_cons_cons.
    destruct (last (b :: l1)) eqn:Hl; [done|]. by apply last_None in Hl.
Qed.

(** X15: press and follow: after a press has installed a path from an Idle
    follower, as many ticks as the path has tiles, all of them passable,
    bring the agent to the world position of the pressed tile and leave
    the follower Idle with the path used up. *)
Theorem press_then_ticks_reach_target fuel self event self' p :
  Idle self → click_handler fuel self event = Return self' →
  path (data self') = Some p → p ≠ [] → Forall (passable self) p →
  player (data (ticks (length p) self'))
    = world (map_of self) (click_target self event) ∧
  path (data (ticks (length p) self')) = Some [] ∧
  Idle (ticks (length p) self').
Proof.
  intros Hidle Hrun Hp Hne Hpass.
  assert (¬ Idle self') as Hnot.
  { unfold Idle. rewrite Hp. by destruct p. }
  destruct (click_handler_installs _ _ _ _ Hidle Hrun Hnot)
    as (p' & Hsearch & -> & _).
  simpl in Hp. injection Hp as ->.
  apply bf_pathfinding_walk in Hsearch as (_ & Hl & _).
  rewrite last_lookup in Hl.
  destruct p as [|t0 rest]; [done|]. simpl length in *. simpl pred in Hl.
  destruct (ticks_advance (length rest) (set_path (Some (t0 :: rest)) self)
              (t0 :: rest) (click_target self event) eq_refl Hl)
    as [Hpath Hpos].
  { rewrite firstn_all2 by (simpl; lia). exact Hpass. }
  assert (drop (S (length rest)) (t0 :: rest) = []) as Hd
    by apply (drop_all (t0 :: rest)).
  rewrite Hd in Hpath.
  split; [exact Hpos|]. split; [exact Hpath|].
  unfold Idle. by rewrite Hpath.
Qed.

End GamePlayMore.

(** ** The further properties on the sample map *)

Lemma sample_search :
  bf_pathfinding sample_neighbors 100 (0, 0) (2, 2)
    = Return (Some [(0, 0); (0, 1); (0, 2); (1, 2); (2, 2)]).
Proof. vm_compute. reflexivity. Qed.

Lemma sample_press :
  click_handler 100 (sample_play sample_map None (0, 0) 0) (press 70 70)
    = Return (set_path (Some [(0, 0); (0, 1); (0, 2); (1, 2); (2, 2)])
                (sample_play sample_map None (0, 0) 0)).
Proof. vm_compute. reflexivity. Qed.

Lemma returned_path_endpoints_sample :
  head [(0, 0); (0, 1); (0, 2); (1, 2); (2, 2)] = Some (0, 0) ∧
  last [(0, 0); (0, 1); (0, 2); (1, 2); (2, 2)] = Some (2, 2).
Proof.
  exact (returned_path_endpoints sample_neighbors 100 (0, 0) (2, 2) _
           sample_search).
Defined.

Lemma reachable_target_is_found_sample :
  ∃ p, Some [(0, 0); (0, 1); (0, 2); (1, 2); (2, 2)] = Some p ∧
    is_walk sample_neighbors (0, 0) (2, 2) p ∧
    ∀ w, is_walk sample_neighbors (0, 0) (2, 2) w → length p ≤ length w.
Proof.
  apply (reachable_target_is_found sample_neighbors 100 (0, 0) (2, 2)).
  - eexists. exact sample_walk.
  - exact sample_search.
Defined.

Lemma returned_path_no_repeat_sample :
  NoDup [(0, 0); (0, 1); (0, 2); (1, 2); (2, 2)].
Proof.
  exact (returned_path_no_repeat sample_neighbors 100 (0, 0) (2, 2) _
           sample_search).
Defined.

Lemma returned_path_length_bound_sample :
  length [(0, 0); (0, 1); (0, 2); (1, 2); (2, 2)] ≤ size sample_region.
Proof.
  apply (returned_path_length_bound sample_neighbors sample_region 100
           (0, 0) (2, 2)).
  - apply (bool_decide_unpack _). vm_compute. exact I.
  - exact sample_region_closed.
  - exact sample_search.
Defined.

Lemma dead_end_start_not_found_sample :
  bf_pathfinding sample_neighbors 2 (2, 0) (0, 0) = Return None.
Proof.
  apply (dead_end_start_not_found sample_neighbors 0 (2, 0) (0, 0)).
  - vm_compute. reflexivity.
  - discriminate.
Defined.

Lemma neighbor_target_direct_path_sample :
  ∃ fuel,
    bf_pathfinding sample_neighbors fuel (0, 0) (0, 1)
      = Return (Some [(0, 0); (0, 1)]).
Proof.
  apply (neighbor_target_direct_path sample_neighbors (0, 0) (0, 1)).
  - apply (bool_decide_unpack _). vm_compute. exact I.
  - discriminate.
Defined.

Lemma click_handler_changes_path_only_when_sample :
  Idle (sample_play sample_map None (0, 0) 0) ∧
  sample_passable (2, 2) = true.
Proof.
  destruct (click_handler_changes_path_only_when 100
              (sample_play sample_map None (0, 0) 0) (press 70 70) _
              sample_press) as (_ & _ & Hpass & Hidle & _).
  - discriminate.
  - split; [exact Hidle|exact Hpass].
Defined.

Lemma idle_ticks_do_nothing_sample :
  ticks 7 (sample_play sample_map (Some []) (0, 2) 0)
    = sample_play sample_map (Some []) (0, 2) 0.
Proof.
  apply (idle_ticks_do_nothing 7 (sample_play sample_map (Some []) (0, 2) 0)).
  reflexivity.
Defined.

(** A path through the wall (1,1): two steps, then the obstruction. *)
Lemma follower_idle_within_path_length_sample :
  Idle (ticks 4
    (sample_play sample_map (Some [(0, 0); (0, 1); (1, 1); (2, 1)]) (0, 0) 0)).
Proof.
  exact (follower_idle_within_path_length
           (sample_play sample_map (Some [(0, 0); (0, 1); (1, 1); (2, 1)])
              (0, 0) 0) _ eq_refl).
Defined.

Lemma active_path_stays_suffix_sample :
  path (data (ticks 1
    (sample_play sample_map (Some [(0, 0); (0, 1); (1, 1); (2, 1)]) (0, 0) 0)))
    = None ∨
  path (data (ticks 1
    (sample_play sample_map (Some [(0, 0); (0, 1); (1, 1); (2, 1)]) (0, 0) 0)))
    = Some [(0, 1); (1, 1); (2, 1)].
Proof.
  exact (active_path_stays_suffix 1
           (sample_play sample_map (Some [(0, 0); (0, 1); (1, 1); (2, 1)])
              (0, 0) 0) _ eq_refl).
Defined.

Lemma agent_only_on_passable_path_tiles_sample :
  player (data (ticks 4
    (sample_play sample_map (Some [(0, 0); (0, 1); (1, 1); (2, 1)]) (2, 2) 0)))
    = sample_world (2, 2) ∨
  ∃ t, t ∈ [(0, 0); (0, 1); (1, 1); (2, 1)] ∧ sample_passable t = true ∧
    player (data (ticks 4
      (sample_play sample_map (Some [(0, 0); (0, 1); (1, 1); (2, 1)])
         (2, 2) 0)))
      = sample_world t.
Proof.
  exact (agent_only_on_passable_path_tiles 4
           (sample_play sample_map (Some [(0, 0); (0, 1); (1, 1); (2, 1)])
              (2, 2) 0) _ eq_refl).
Defined.

Lemma obstruction_stops_agent_before_sample :
  path (data (ticks 3
    (sample_play sample_map (Some [(0, 0); (0, 1); (1, 1); (2, 1)]) (2, 2) 0)))
    = None ∧
  player (data (ticks 3
    (sample_play sample_map (Some [(0, 0); (0, 1); (1, 1); (2, 1)]) (2, 2) 0)))
    = sample_world (0, 1).
Proof.
  apply (obstruction_stops_agent_before
           (sample_play sample_map (Some [(0, 0); (0, 1); (1, 1); (2, 1)])
              (2, 2) 0)
           [(0, 0); (0, 1)] (1, 1) [(2, 1)]).
  - reflexivity.
  - repeat constructor.
  - reflexivity.
Defined.

Lemma press_then_ticks_reach_target_sample :
  player (data (ticks 5
    (set_path (Some [(0, 0); (0, 1); (0, 2); (1, 2); (2, 2)])
       (sample_play sample_map None (0, 0) 0))))
    = sample_world (2, 2) ∧
  path (data (ticks 5
    (set_path (Some [(0, 0); (0, 1); (0, 2); (1, 2); (2, 2)])
       (sample_play sample_map None (0, 0) 0)))) = Some [] ∧
  Idle (ticks 5
    (set_path (Some [(0, 0); (0, 1); (0, 2); (1, 2); (2, 2)])
       (sample_play sample_map None (0, 0) 0))).
Proof.
  apply (press_then_ticks_reach_target 100
           (sample_play sample_map None (0, 0) 0) (press 70 70) _
           [(0, 0); (0, 1); (0, 2); (1, 2); (2, 2)]).
  - reflexivity.
  - exact sample_press.
  - reflexivity.
  - discriminate.
  - repeat constructor.
Defined.
